(** * aid: the Result container and the mutex-guarded queue

    A shallow embedding of [include/aid/core/result.hpp] and
    [include/aid/mpsc/mpsc_queue.hpp], with the helper functions of
    [tests/src/result.cpp], followed by the properties proved about them.

    Conventions of the embedding:
    - a [std::optional<T>] is an [option T];
    - a member function that writes to its receiver returns the new receiver
      next to its result;
    - [std::clog << ... << std::endl] and [std::exit] are effects of a small
      monad [M] over the state of the process;
    - dereferencing an empty optional and signed overflow are undefined
      behaviour, outcome [Undefined]. *)

From Stdlib Require Import ZArith List String Bool Lia.
From Stdlib Require Import DecimalString.
Import ListNotations.
Local Open Scope string_scope.
Local Open Scope list_scope.
Local Open Scope Z_scope.

(** ** The process: diagnostic stream, exit, undefined behaviour *)

(** What a call can observe and change outside its receiver: the lines written
    to [std::clog], and [env], whatever else the callables handed to the
    combinators can reach (captures, globals). *)
Record World (Env : Type) : Type := mkWorld {
  clog : list string;
  env : Env
}.
Arguments mkWorld {Env} _ _.
Arguments clog {Env} _.
Arguments env {Env} _.

(** How a call ends. [Waits] is a call stopped at a mutex that is held. *)
Inductive Outcome (Env A : Type) : Type :=
| Returns (a : A) (w : World Env)
| Exits (status : Z) (w : World Env)
| Undefined
| Waits.
Arguments Returns {Env A} _ _.
Arguments Exits {Env A} _ _.
Arguments Undefined {Env A}.
Arguments Waits {Env A}.

Definition M (Env A : Type) : Type := World Env -> Outcome Env A.

Section Process.
Context {Env : Type}.

Definition ret {A} (a : A) : M Env A := fun w => Returns a w.

Definition bind {A B} (c : M Env A) (k : A -> M Env B) : M Env B :=
  fun w =>
    match c w with
    | Returns a w' => k a w'
    | Exits status w' => Exits status w'
    | Undefined => Undefined
    | Waits => Waits
    end.

(** [std::clog << line << std::endl] *)
Definition clog_endl (line : string) : M Env unit :=
  fun w => Returns tt (mkWorld (clog w ++ [line]) (env w)).

(** [std::exit(status)] *)
Definition exit {A} (status : Z) : M Env A := fun w => Exits status w.

Definition undefined {A} : M Env A := fun _ => Undefined.

(** [*o] on a [std::optional]: the payload, undefined when there is none. *)
Definition deref {A} (o : option A) : M Env A :=
  match o with
  | Some a => ret a
  | None => undefined
  end.

End Process.

Notation "x <- c ;; k" := (bind c (fun x => k))
  (at level 61, c at next level, right associativity).
Notation "c ;; k" := (bind c (fun _ => k))
  (at level 61, right associativity).

(** [o.has_value()] *)
Definition has_value {A} (o : option A) : bool :=
  match o with
  | Some _ => true
  | None => false
  end.

(** [operator==] of a payload type, as the templates require it. *)
Class EqualityComparable (T : Type) := op_eq : T -> T -> bool.

#[export] Instance int_eq : EqualityComparable Z := Z.eqb.
#[export] Instance string_eq : EqualityComparable string := String.eqb.

(** [operator==] of [std::optional]: equal when both are empty or both hold
    equal payloads. *)
Definition optional_eq {T} `{EqualityComparable T} (a b : option T) : bool :=
  match a, b with
  | Some x, Some y => op_eq x y
  | None, None => true
  | _, _ => false
  end.

(** The state a [T] is left in once another [T] has been move-constructed
    from it; the new object carries the value the source had. *)
Class Movable (T : Type) := moved_from : T -> T.

(** Initialising a [To] from an rvalue [From], as a [return] statement does
    when the declared return type is [To]: what is built and what is left in
    the source object. *)
Class InitFrom (From To : Type) := {
  init_from : From -> To;
  left_in_source : From -> From
}.

(** Between objects of one type this is move construction. *)
#[export] Instance move_init (T : Type) `{Movable T} : InitFrom T T := {
  init_from := fun x => x;
  left_in_source := moved_from
}.

(** [int]: moving from a scalar copies it. *)
#[export] Instance int_movable : Movable Z := fun x => x.

(** [int] to [bool], the standard boolean conversion: zero is [false]. *)
#[export] Instance int_to_bool : InitFrom Z bool := {
  init_from := fun x => negb (x =? 0);
  left_in_source := fun x => x
}.

(** [os << x] for a payload: the characters of the stream before and after. *)
Class Streamable (T : Type) := stream_out : string -> T -> string.

(** [os << x] for an [int], with the flags a stream starts with: decimal, a
    minus sign for a negative number, no padding. *)
#[export] Instance int_streamable : Streamable Z :=
  fun os x => String.append os (NilZero.string_of_int (Z.to_int x)).

(** [os << s] for a [std::string], no padding. *)
#[export] Instance string_streamable : Streamable string :=
  fun os s => String.append os s.

(** The range of [int]; signed overflow is undefined. *)
Definition INT_MIN : Z := -2147483648.
Definition INT_MAX : Z := 2147483647.

Definition int_mul {Env} (x y : Z) : M Env Z :=
  if (INT_MIN <=? x * y) && (x * y <=? INT_MAX) then ret (x * y) else undefined.

(** ** namespace aid::core *)

Module core.

(** [class Result<Ok, Err>]: the two private members. *)
Record Result (Ok Err : Type) : Type := mkResult {
  Oke : option Ok;
  Erre : option Err
}.
Arguments mkResult {Ok Err} _ _.
Arguments Oke {Ok Err} _.
Arguments Erre {Ok Err} _.

Section Construction.
Context {Env Ok Err : Type}.

(** [explicit Result(std::optional<Ok> ok, std::optional<Err> err)] *)
Definition Result_ctor (ok : option Ok) (err : option Err)
  : M Env (Result Ok Err) :=
  let has_ok := has_value ok in
  let has_err := has_value err in
  (if has_ok && has_err
   then clog_endl "Trying to construct a Result with both an Ok and Err value." ;;
        exit 1
   else ret tt) ;;
  (if negb has_ok && negb has_err
   then clog_endl "Trying to construct a Result without an Ok or an Err value." ;;
        exit 1
   else ret tt) ;;
  ret (mkResult ok err).

(** [ok<Ok, Err>(Ok &&value)] *)
Definition ok (value : Ok) : M Env (Result Ok Err) :=
  Result_ctor (Some value) None.

(** [err<Ok, Err>(Err &&value)] *)
Definition err (value : Err) : M Env (Result Ok Err) :=
  Result_ctor None (Some value).

End Construction.

(** The member functions of [Result]. The combinators take their receiver by
    value: the header documents its state after the call as undefined. *)
Module Result.

Section Members.
Context {Env Ok Err : Type}.

(** [bool operator==(const Result &rhs) const] *)
Definition operator_eq `{EqualityComparable Ok} `{EqualityComparable Err}
  (this rhs : Result Ok Err) : bool :=
  optional_eq (Oke this) (Oke rhs) && optional_eq (Erre this) (Erre rhs).

(** [bool operator!=(const Result &rhs) const { return rhs != *this; }]

    The body is a call of this same operator, with receiver [rhs] and
    argument [*this]. [fuel] bounds the depth of nested calls; [None] means
    that no call has returned within that depth. *)
Fixpoint operator_ne (fuel : nat) (this rhs : Result Ok Err) : option bool :=
  match fuel with
  | O => None
  | S fuel' => operator_ne fuel' rhs this
  end.

(** The same operator as an evaluation relation: a call returns [b] when the
    call in its body returns [b]. The body has no other way to return. *)
Inductive operator_ne_returns : Result Ok Err -> Result Ok Err -> bool -> Prop :=
| ne_body (this rhs : Result Ok Err) (b : bool) :
    operator_ne_returns rhs this b -> operator_ne_returns this rhs b.

(** [bool isOk() const] *)
Definition isOk (this : Result Ok Err) : bool := has_value (Oke this).

(** [bool isErr() const] *)
Definition isErr (this : Result Ok Err) : bool := has_value (Erre this).

(** [map(Func &&F) -> Result<result_of_t<Func(Ok&&)>, Err>] *)
Definition map {U} (F : Ok -> M Env U) (this : Result Ok Err)
  : M Env (Result U Err) :=
  if isOk this then
    v <- deref (Oke this) ;;
    u <- F v ;;
    Result_ctor (Some u) None
  else if isErr this then
    e <- deref (Erre this) ;;
    Result_ctor None (Some e)
  else
    clog_endl "Trying to apply a map function to a Result that has no value and no error." ;;
    exit 1.

(** [mapErr(Func &&F) -> Result<Ok, result_of_t<Func(Err&&)>>] *)
Definition mapErr {U} (F : Err -> M Env U) (this : Result Ok Err)
  : M Env (Result Ok U) :=
  if isOk this then
    v <- deref (Oke this) ;;
    Result_ctor (Some v) None
  else if isErr this then
    e <- deref (Erre this) ;;
    u <- F e ;;
    Result_ctor None (Some u)
  else
    clog_endl "Trying to apply a mapErr function to a Result that has no value and no error." ;;
    exit 1.

(** [mapOr(U &&Default, Func &&F) -> U] *)
Definition mapOr {U} (Default : U) (F : Ok -> M Env U) (this : Result Ok Err)
  : M Env U :=
  if isOk this then
    v <- deref (Oke this) ;;
    F v
  else ret Default.

(** [mapOrElse(DefaultFunc &&Df, Func &&F) -> result_of_t<Func(Ok&&)>] *)
Definition mapOrElse {U} (Df : Err -> M Env U) (F : Ok -> M Env U)
  (this : Result Ok Err) : M Env U :=
  if isOk this then
    v <- deref (Oke this) ;;
    F v
  else
    e <- deref (Erre this) ;;
    Df e.

(** [and_(Result<U, Err> &&Res) -> Result<U, Err>] *)
Definition and_ {U} (Res : Result U Err) (this : Result Ok Err)
  : M Env (Result U Err) :=
  if isOk this then ret Res
  else
    e <- deref (Erre this) ;;
    err e.

(** [andThen(Func &&F) -> R], with [R] the return type of [F].

    The failure branch returns [err<Ok, R::ErrType>(std::move( *Erre))] as an
    [R]; [Result] converts from no other [Result], so [R] is
    [Result<Ok, R::ErrType>], and the payload goes over unconverted when
    [R::ErrType] is [Err]. *)
Definition andThen (F : Ok -> M Env (Result Ok Err)) (this : Result Ok Err)
  : M Env (Result Ok Err) :=
  if isOk this then
    v <- deref (Oke this) ;;
    F v
  else
    e <- deref (Erre this) ;;
    err e.

(** [Ok value()] *)
Definition value (this : Result Ok Err) : M Env (Ok * Result Ok Err) :=
  (if negb (has_value (Oke this))
   then clog_endl "Trying to get the value of a result which doesn't have a value" ;;
        exit 1
   else ret tt) ;;
  tmp <- deref (Oke this) ;;
  let this := mkResult None (Erre this) in
  ret (tmp, this).

(** [Ok valueOr(Ok Default)] *)
Definition valueOr (Default : Ok) (this : Result Ok Err)
  : M Env (Ok * Result Ok Err) :=
  if negb (has_value (Oke this)) then ret (Default, this)
  else
    tmp <- deref (Oke this) ;;
    let this := mkResult None (Erre this) in
    ret (tmp, this).

(** [auto expect(const char *msg) -> Ok] *)
Definition expect `{Movable Ok} (msg : string) (this : Result Ok Err)
  : M Env (Ok * Result Ok Err) :=
  if isOk this then
    v <- deref (Oke this) ;;
    ret (v, mkResult (Some (moved_from v)) (Erre this))
  else
    clog_endl msg ;;
    exit 1.

(** [auto expectErr(const char *msg) -> Ok]

    The declared return type is [Ok]; the returned expression is the [Err]
    payload as an rvalue, from which the [return] statement initialises an
    [Ok]. The slot is not reset. *)
Definition expectErr `{InitFrom Err Ok} (msg : string) (this : Result Ok Err)
  : M Env (Ok * Result Ok Err) :=
  if isErr this then
    e <- deref (Erre this) ;;
    ret (init_from e, mkResult (Oke this) (Some (left_in_source e)))
  else
    clog_endl msg ;;
    exit 1.

(** [Err err()] *)
Definition err (this : Result Ok Err) : M Env (Err * Result Ok Err) :=
  (if negb (has_value (Erre this))
   then clog_endl "Trying to get the error of a result which doesn't have an error" ;;
        exit 1
   else ret tt) ;;
  tmp <- deref (Erre this) ;;
  let this := mkResult (Oke this) None in
  ret (tmp, this).

(** [Err errOr(Err default_value)] *)
Definition errOr (default_value : Err) (this : Result Ok Err)
  : M Env (Err * Result Ok Err) :=
  if negb (has_value (Erre this)) then ret (default_value, this)
  else
    tmp <- deref (Erre this) ;;
    let this := mkResult (Oke this) None in
    ret (tmp, this).

(** [contains(const U &x) -> bool], the payload compared with its own
    [operator==]. [Oke.value()] is reached with a value only. *)
Definition contains `{EqualityComparable Ok} (x : Ok) (this : Result Ok Err)
  : bool :=
  if isOk this then
    match Oke this with
    | Some value => if op_eq value x then true else false
    | None => false
    end
  else false.

(** [containsErr(const U &x) -> bool] *)
Definition containsErr `{EqualityComparable Err} (x : Err) (this : Result Ok Err)
  : bool :=
  if isErr this then
    match Erre this with
    | Some value => if op_eq value x then true else false
    | None => false
    end
  else false.

(** [ore(Result<Ok, U> &&Res) -> Result<Ok, U>] *)
Definition ore {U} (Res : Result Ok U) (this : Result Ok Err)
  : M Env (Result Ok U) :=
  if isOk this then
    v <- deref (Oke this) ;;
    ok v
  else ret Res.

(** [orElse(Func &&F) -> R], with [R] the return type of [F].

    The success branch returns [R(std::move( *Oke), {})]: the value goes into
    the value slot of an [R] unconverted when [R::OkType] is [Ok]. *)
Definition orElse {U} (F : Err -> M Env (Result Ok U)) (this : Result Ok Err)
  : M Env (Result Ok U) :=
  if isOk this then
    v <- deref (Oke this) ;;
    Result_ctor (Some v) None
  else
    e <- deref (Erre this) ;;
    F e.

End Members.

End Result.

(** Move assignment of [std::optional], [dst = std::move(src)]: what [dst]
    holds afterwards and what is left in [src], which keeps a value when it
    had one. *)
Definition optional_move {T : Type} `{Movable T} (src : option T)
  : option T * option T :=
  (src, option_map moved_from src).

(** Objects of the class by address, for the member functions that compare
    the address of their receiver with that of their argument. *)
Definition Objects (Ok Err : Type) : Type := nat -> Result Ok Err.

Definition assign {Ok Err : Type} (objs : Objects Ok Err) (a : nat)
  (r : Result Ok Err) : Objects Ok Err :=
  fun b => if Nat.eqb b a then r else objs b.

(** [Result &operator=(Result &&other) noexcept] *)
Definition operator_assign {Ok Err : Type} `{Movable Ok} `{Movable Err}
  (this other : nat) (objs : Objects Ok Err) : Objects Ok Err :=
  if negb (Nat.eqb this other) then
    let m := optional_move (Oke (objs other)) in
    let objs := assign objs this (mkResult (fst m) (Erre (objs this))) in
    let objs := assign objs other (mkResult (snd m) (Erre (objs other))) in
    let m := optional_move (Erre (objs other)) in
    let objs := assign objs this (mkResult (Oke (objs this)) (fst m)) in
    let objs := assign objs other (mkResult (Oke (objs other)) (snd m)) in
    objs
  else objs.

(** [Result(Result &&other) noexcept]: the members of the new object start
    empty, then [*this = std::move(other)]. *)
Definition Result_move_ctor {Ok Err : Type} `{Movable Ok} `{Movable Err}
  (this other : nat) (objs : Objects Ok Err) : Objects Ok Err :=
  operator_assign this other (assign objs this (mkResult None None)).

(** [std::ostream &operator<<(std::ostream &os, const Result<O, E> &r)];
    each [value()] is reached with a value only. *)
Definition operator_shl {Ok Err : Type} `{Streamable Ok} `{Streamable Err}
  (os : string) (r : Result Ok Err) : string :=
  let os :=
    if Result.isOk r then
      match Oke r with
      | Some v => String.append (stream_out (String.append os "Ok{") v) "}"
      | None => os
      end
    else os in
  let os :=
    if Result.isErr r then
      match Erre r with
      | Some e => String.append (stream_out (String.append os "Err{") e) "}"
      | None => os
      end
    else os in
  os.

(** The invariant of the class: exactly one of the two members holds a value,
    [isOk() != isErr()]. *)
Definition exclusive {Ok Err : Type} (r : Result Ok Err) : Prop :=
  Result.isOk r <> Result.isErr r.

End core.

(** ** namespace aid::mpsc *)

Module mpsc.

(** [enum MpscError] *)
Inductive MpscError : Type := Sender | Receiver | EmptyQueue.

(** [class MpscQueue<T>]: [std::queue<T> Q], front first, and [std::mutex Mut],
    [true] while it is held. *)
Record MpscQueue (T : Type) : Type := mkMpscQueue {
  Q : list T;
  Mut : bool
}.
Arguments mkMpscQueue {T} _ _.
Arguments Q {T} _.
Arguments Mut {T} _.

(** The implicit default constructor: no element, the mutex free. *)
Definition MpscQueue_default {T : Type} : MpscQueue T := mkMpscQueue [] false.

Section Queue.
Context {Env T : Type}.

(** [std::scoped_lock lock(Mut)]: acquires the mutex, waiting while it is
    held. *)
Definition scoped_lock (this : MpscQueue T) : M Env (MpscQueue T) :=
  fun w => if Mut this then Waits else Returns (mkMpscQueue (Q this) true) w.

(** The destructor of the lock, at the end of the scope. *)
Definition release (this : MpscQueue T) : MpscQueue T :=
  mkMpscQueue (Q this) false.

(** [void push(T &&value)] *)
Definition push (value : T) (this : MpscQueue T) : M Env (MpscQueue T) :=
  this <- scoped_lock this ;;
  let this := mkMpscQueue (Q this ++ [value]) (Mut this) in
  ret (release this).

(** [auto pop() -> Result<T, MpscError>], with [Result] the class of
    [aid::core], whose [ok] and [err] the body calls. *)
Definition pop (this : MpscQueue T)
  : M Env (core.Result T MpscError * MpscQueue T) :=
  this <- scoped_lock this ;;
  match Q this with
  | front :: rest =>
      let owner := front in
      let this := mkMpscQueue rest (Mut this) in
      r <- core.ok owner ;;
      ret (r, release this)
  | [] =>
      r <- core.err EmptyQueue ;;
      ret (r, release this)
  end.

(** A caller that enqueues [values] one after the other. *)
Fixpoint push_all (values : list T) (this : MpscQueue T) : M Env (MpscQueue T) :=
  match values with
  | [] => ret this
  | v :: rest =>
      this <- push v this ;;
      push_all rest this
  end.

(** A caller that dequeues [n] times and keeps what each call returned. *)
Fixpoint pop_n (n : nat) (this : MpscQueue T)
  : M Env (list (core.Result T MpscError) * MpscQueue T) :=
  match n with
  | O => ret ([], this)
  | S k =>
      p <- pop this ;;
      ps <- pop_n k (snd p) ;;
      ret (fst p :: fst ps, snd ps)
  end.

(** One call on the queue, and callers taking turns at it: the mutex lets one
    member function run at a time, so what concurrent callers do to the queue
    is what their calls do in the order in which they got the mutex. *)
Inductive Call : Type :=
| Enqueue (value : T)
| Dequeue.

(** The values of the [Enqueue] calls, in order. *)
Fixpoint enqueued (calls : list Call) : list T :=
  match calls with
  | [] => []
  | Enqueue v :: rest => v :: enqueued rest
  | Dequeue :: rest => enqueued rest
  end.

(** [*o] of every slot that has a value. *)
Definition payloads (rs : list (core.Result T MpscError)) : list T :=
  flat_map (fun r => match core.Oke r with Some v => [v] | None => [] end) rs.

(** Runs the calls in order; returns what the [Dequeue] calls returned. *)
Fixpoint run (calls : list Call) (this : MpscQueue T)
  : M Env (list (core.Result T MpscError) * MpscQueue T) :=
  match calls with
  | [] => ret ([], this)
  | Enqueue v :: rest =>
      this <- push v this ;;
      run rest this
  | Dequeue :: rest =>
      p <- pop this ;;
      ps <- run rest (snd p) ;;
      ret (fst p :: fst ps, snd ps)
  end.

End Queue.

End mpsc.

(** ** tests/src/result.cpp *)

Module tests.

Section Helpers.
Context {Env : Type}.

(** [Result<int, int> sq(int &&x) { return ok<int, int>(x * x); }] *)
Definition sq (x : Z) : M Env (core.Result Z Z) :=
  p <- int_mul x x ;;
  core.ok p.

(** [Result<int, int> er(int &&x)] *)
Definition er (x : Z) : M Env (core.Result Z Z) :=
  let y := x in
  core.err y.

End Helpers.

End tests.

(** ** Callables that count their calls

    Two callables over a pair of counters, for [mapOrElse]: the first counts
    into the left counter, the second into the right one. *)

Definition count_left {A : Type} (_ : A) : M (nat * nat) unit :=
  fun w => Returns tt (mkWorld (clog w) (S (fst (env w)), snd (env w))).

Definition count_right {A : Type} (_ : A) : M (nat * nat) unit :=
  fun w => Returns tt (mkWorld (clog w) (fst (env w), S (snd (env w)))).

(** * Properties *)

Import core.

(** ** The monad *)

Section MonadLaws.
Context {Env : Type}.

Lemma bind_ret_l {A B} (a : A) (k : A -> M Env B) (w : World Env) :
  (x <- ret a ;; k x) w = k a w.
Proof. reflexivity. Qed.

Lemma bind_returns {A B} (c : M Env A) (k : A -> M Env B) (w w' : World Env) (a : A) :
  c w = Returns a w' -> (x <- c ;; k x) w = k a w'.
Proof. intros Hc. unfold bind. now rewrite Hc. Qed.

Lemma bind_assoc {A B C} (c : M Env A) (k : A -> M Env B) (h : B -> M Env C)
  (w : World Env) :
  (y <- (x <- c ;; k x) ;; h y) w = (x <- c ;; y <- k x ;; h y) w.
Proof. unfold bind. destruct (c w); reflexivity. Qed.

End MonadLaws.

(** ** Construction *)

Section ConstructionFacts.
Context {Env Ok Err : Type}.

Lemma ok_returns (v : Ok) (w : World Env) :
  ok (Err := Err) v w = Returns (mkResult (Some v) None) w.
Proof. reflexivity. Qed.

Lemma err_returns (e : Err) (w : World Env) :
  err (Ok := Ok) e w = Returns (mkResult None (Some e)) w.
Proof. reflexivity. Qed.

(** Whatever the constructor returns satisfies the invariant. *)
Lemma Result_ctor_exclusive (o : option Ok) (e : option Err) (w w' : World Env)
  (r : Result Ok Err) :
  Result_ctor o e w = Returns r w' -> exclusive r /\ w' = w.
Proof.
  destruct o, e; cbv; intros H; inversion H; subst; split; congruence.
Qed.

Lemma exclusive_cases (r : Result Ok Err) :
  exclusive r ->
  (exists v, r = mkResult (Some v) None) \/ (exists e, r = mkResult None (Some e)).
Proof.
  destruct r as [[v|] [e|]]; cbv; intros H.
  - now contradiction H.
  - left. now exists v.
  - right. now exists e.
  - now contradiction H.
Qed.

End ConstructionFacts.

(** C1. A [Result] obtained from [ok] or from [err] has exactly one member
    with a value, so [isOk() != isErr()]; the constructor given two values, or
    none, writes its diagnostic line to [std::clog] and exits with status 1
    without returning an object. *)
Theorem ok_err_exclusive_else_exit (Env Ok Err : Type) (w : World Env) :
  (forall v : Ok, exists r : Result Ok Err,
      ok v w = Returns r w /\ Oke r = Some v /\ Erre r = None /\
      Result.isOk r <> Result.isErr r) /\
  (forall e : Err, exists r : Result Ok Err,
      err e w = Returns r w /\ Oke r = None /\ Erre r = Some e /\
      Result.isOk r <> Result.isErr r) /\
  (forall (v : Ok) (e : Err),
      Result_ctor (Some v) (Some e) w =
      Exits 1 (mkWorld
                 (clog w ++ ["Trying to construct a Result with both an Ok and Err value."])
                 (env w))) /\
  Result_ctor (Ok := Ok) (Err := Err) None None w =
  Exits 1 (mkWorld
             (clog w ++ ["Trying to construct a Result without an Ok or an Err value."])
             (env w)).
Proof.
  repeat split.
  - intros v. exists (mkResult (Some v) None). repeat split. discriminate.
  - intros e. exists (mkResult None (Some e)). repeat split. discriminate.
Qed.

(** ** The queue *)

Section QueueFacts.
Context {Env T : Type}.

Lemma push_returns (v : T) (q : mpsc.MpscQueue T) (w : World Env) :
  mpsc.Mut q = false ->
  mpsc.push v q w = Returns (mpsc.mkMpscQueue (mpsc.Q q ++ [v]) false) w.
Proof.
  intros Hfree. unfold mpsc.push, mpsc.scoped_lock, bind. now rewrite Hfree.
Qed.

Lemma pop_front (v : T) (rest : list T) (w : World Env) :
  mpsc.pop (mpsc.mkMpscQueue (v :: rest) false) w =
  Returns (mkResult (Some v) None, mpsc.mkMpscQueue rest false) w.
Proof. reflexivity. Qed.

Lemma pop_empty (w : World Env) :
  mpsc.pop (T := T) (mpsc.mkMpscQueue [] false) w =
  Returns (mkResult None (Some mpsc.EmptyQueue), mpsc.mkMpscQueue [] false) w.
Proof. reflexivity. Qed.

Lemma push_all_returns (values : list T) :
  forall (q : mpsc.MpscQueue T) (w : World Env),
    mpsc.Mut q = false ->
    mpsc.push_all values q w =
    Returns (mpsc.mkMpscQueue (mpsc.Q q ++ values) false) w.
Proof.
  induction values as [|v values IH]; intros q w Hfree; simpl.
  - rewrite app_nil_r. destruct q as [items held]; simpl in *. now subst held.
  - rewrite (bind_returns _ _ _ _ _ (push_returns v q w Hfree)).
    rewrite IH by reflexivity. simpl. now rewrite <- app_assoc.
Qed.

Lemma pop_n_returns (n : nat) :
  forall (items : list T) (w : World Env),
    mpsc.pop_n n (mpsc.mkMpscQueue items false) w =
    Returns (List.map (fun v => mkResult (Some v) None) (firstn n items)
               ++ repeat (mkResult None (Some mpsc.EmptyQueue))
                    (n - List.length items)%nat,
             mpsc.mkMpscQueue (skipn n items) false) w.
Proof.
  induction n as [|n IH]; intros items w.
  - reflexivity.
  - cbn [mpsc.pop_n]. destruct items as [|v rest].
    + rewrite (bind_returns _ _ _ _ _ (pop_empty w)). cbn [snd fst].
      rewrite (bind_returns _ _ _ _ _ (IH [] w)).
      rewrite !firstn_nil, !skipn_nil. simpl. now rewrite Nat.sub_0_r.
    + rewrite (bind_returns _ _ _ _ _ (pop_front v rest w)). cbn [snd fst].
      rewrite (bind_returns _ _ _ _ _ (IH rest w)). reflexivity.
Qed.

(** X23. Callers taking turns, in any order of [push] and [pop] calls on a
    queue whose mutex is free: every call returns, the mutex is free
    afterwards, and the dequeued values followed by what is still queued are
    what was queued followed by the enqueued values, in order. *)
Lemma run_fifo (calls : list (mpsc.Call (T := T))) :
  forall (q : mpsc.MpscQueue T) (w : World Env),
    mpsc.Mut q = false ->
    exists (rs : list (Result T mpsc.MpscError)) (items : list T),
      mpsc.run calls q w = Returns (rs, mpsc.mkMpscQueue items false) w /\
      mpsc.payloads rs ++ items = mpsc.Q q ++ mpsc.enqueued calls.
Proof.
  induction calls as [|[v|] calls IH]; intros [items held] w Hfree;
    simpl in Hfree; subst held.
  - exists [], items. split; [reflexivity | simpl; now rewrite app_nil_r].
  - cbn [mpsc.run mpsc.enqueued].
    rewrite (bind_returns _ _ _ _ _
               (push_returns v (mpsc.mkMpscQueue items false) w eq_refl)).
    destruct (IH (mpsc.mkMpscQueue (items ++ [v]) false) w eq_refl)
      as (rs & items' & Hrun & Hfifo).
    exists rs, items'. split; [exact Hrun|].
    rewrite Hfifo. simpl. now rewrite <- app_assoc.
  - cbn [mpsc.run mpsc.enqueued]. destruct items as [|v rest].
    + rewrite (bind_returns _ _ _ _ _ (pop_empty w)). cbn [snd fst].
      destruct (IH (mpsc.mkMpscQueue [] false) w eq_refl)
        as (rs & items' & Hrun & Hfifo).
      rewrite (bind_returns _ _ _ _ _ Hrun).
      exists (mkResult None (Some mpsc.EmptyQueue) :: rs), items'.
      split; [reflexivity | exact Hfifo].
    + rewrite (bind_returns _ _ _ _ _ (pop_front v rest w)). cbn [snd fst].
      destruct (IH (mpsc.mkMpscQueue rest false) w eq_refl)
        as (rs & items' & Hrun & Hfifo).
      rewrite (bind_returns _ _ _ _ _ Hrun).
      exists (mkResult (Some v) None :: rs), items'.
      split; [reflexivity|]. simpl in *. now rewrite Hfifo.
Qed.

(** C2. Enqueueing [values] one after the other on a queue whose mutex is
    free and then dequeueing [n] times returns, in this order, the values that
    were queued and then the enqueued ones, oldest first, each in the value
    slot of its [Result], each once; the calls after the last value return the
    [EmptyQueue] error; the queue keeps exactly the values not yet dequeued,
    in order. *)
Theorem push_then_pop_fifo (values : list T) (n : nat) (q : mpsc.MpscQueue T)
  (w : World Env) :
  mpsc.Mut q = false ->
  (q' <- mpsc.push_all values q ;; mpsc.pop_n n q') w =
  Returns
    (List.map (fun v => mkResult (Some v) None) (firstn n (mpsc.Q q ++ values))
       ++ repeat (mkResult None (Some mpsc.EmptyQueue))
            (n - List.length (mpsc.Q q ++ values))%nat,
     mpsc.mkMpscQueue (skipn n (mpsc.Q q ++ values)) false) w.
Proof.
  intros Hfree.
  rewrite (bind_returns _ _ _ _ _ (push_all_returns values q w Hfree)).
  apply pop_n_returns.
Qed.

(** C3. On a newly constructed queue every one of [n] successive [pop] calls
    returns, without waiting, a [Result] with no value and the error
    [EmptyQueue], and the queue is afterwards as it was constructed. *)
Theorem pop_fresh_queue_empty (n : nat) (w : World Env) :
  mpsc.pop_n n (mpsc.MpscQueue_default (T := T)) w =
  Returns (repeat (mkResult None (Some mpsc.EmptyQueue)) n,
           mpsc.MpscQueue_default) w.
Proof.
  unfold mpsc.MpscQueue_default. rewrite pop_n_returns.
  rewrite firstn_nil, skipn_nil. simpl. now rewrite Nat.sub_0_r.
Qed.

End QueueFacts.

(** A queue holding 5, two enqueues, four dequeues. *)
Lemma push_then_pop_fifo_witness :
  mpsc.Mut (mpsc.mkMpscQueue [5] false) = false /\
  (q' <- mpsc.push_all [7; 8] (mpsc.mkMpscQueue [5] false) ;; mpsc.pop_n 4 q')
    (mkWorld [] tt) =
  Returns ([mkResult (Some 5) None; mkResult (Some 7) None;
            mkResult (Some 8) None; mkResult None (Some mpsc.EmptyQueue)],
           mpsc.mkMpscQueue [] false) (mkWorld [] tt).
Proof.
  split; [reflexivity|].
  apply (push_then_pop_fifo [7; 8] 4%nat (mpsc.mkMpscQueue [5] false)
           (mkWorld [] tt)).
  reflexivity.
Defined.

(** ** Chaining and mapping *)

Section CombinatorFacts.
Context {Env Ok Err : Type}.

Lemma andThen_ok (F : Ok -> M Env (Result Ok Err)) (v : Ok) (e : option Err)
  (w : World Env) :
  Result.andThen F (mkResult (Some v) e) w = F v w.
Proof. reflexivity. Qed.

Lemma andThen_err (F : Ok -> M Env (Result Ok Err)) (e : Err) (w : World Env) :
  Result.andThen F (mkResult None (Some e)) w = Returns (mkResult None (Some e)) w.
Proof. reflexivity. Qed.

(** C7. [map] on a [Result] that holds an error and no value returns a
    [Result] holding that same error and no value; nothing else changes,
    whatever [F] would do when called: it is not called. *)
Theorem map_identity_on_err (U : Type) (F : Ok -> M Env U) (r : Result Ok Err)
  (e : Err) (w : World Env) :
  Result.isOk r = false ->
  Erre r = Some e ->
  Result.map F r w = Returns (mkResult None (Some e)) w.
Proof.
  intros Hok Herr. unfold Result.map, Result.isErr.
  rewrite Hok, Herr. reflexivity.
Qed.

(** C8. On a [Result] with exactly one member holding a value, the whole
    effect of [mapOrElse] is that of one call of one of the two callables:
    of [F] on the value when [isOk()] holds, of [Df] on the error when it does
    not. *)
Theorem mapOrElse_calls_exactly_one (U : Type) (Df : Err -> M Env U)
  (F : Ok -> M Env U) (r : Result Ok Err) :
  exclusive r ->
  if Result.isOk r
  then exists v, Oke r = Some v /\
                 forall w, Result.mapOrElse Df F r w = F v w
  else exists e, Erre r = Some e /\
                 forall w, Result.mapOrElse Df F r w = Df e w.
Proof.
  intros Hex. destruct (exclusive_cases r Hex) as [[v ->] | [e ->]]; simpl.
  - exists v. split; reflexivity.
  - exists e. split; reflexivity.
Qed.

(** ** Extraction *)

(** C6. [value()] on a [Result] holding a value returns it and leaves the
    value slot empty; [value()] on what is left writes its diagnostic line to
    [std::clog] and exits with status 1: it returns nothing. *)
Theorem value_twice_exits (r : Result Ok Err) (v : Ok) (w : World Env) :
  Oke r = Some v ->
  exists r' : Result Ok Err,
    Result.value r w = Returns (v, r') w /\
    Oke r' = None /\
    Erre r' = Erre r /\
    Result.value r' w =
    Exits 1 (mkWorld
               (clog w ++ ["Trying to get the value of a result which doesn't have a value"])
               (env w)).
Proof.
  intros Hv. exists (mkResult None (Erre r)). unfold Result.value.
  rewrite Hv. repeat split.
Qed.

(** C10. [valueOr] on a [Result] holding an error and no value returns the
    default; the call returns, and the receiver is afterwards what it was: the
    same error in the error slot, [isErr()] still true. *)
Theorem valueOr_on_err_keeps_err (r : Result Ok Err) (Default : Ok)
  (w : World Env) :
  Result.isErr r = true ->
  Result.isOk r = false ->
  exists r' : Result Ok Err,
    Result.valueOr Default r w = Returns (Default, r') w /\
    r' = r /\
    Result.isErr r' = true.
Proof.
  intros Herr Hok. exists r. unfold Result.valueOr.
  change (has_value (Oke r)) with (Result.isOk r). rewrite Hok.
  repeat split. exact Herr.
Qed.

(** [expectErr] on a [Result] without an error writes [msg] and exits. *)
Lemma expectErr_without_err `{InitFrom Err Ok} (msg : string)
  (r : Result Ok Err) (w : World Env) :
  Result.isErr r = false ->
  Result.expectErr msg r w = Exits 1 (mkWorld (clog w ++ [msg]) (env w)).
Proof. intros Herr. unfold Result.expectErr. now rewrite Herr. Qed.

(** Where [Ok] and [Err] are one type, [expectErr] returns the error; the
    slot keeps a value, the moved-from one. *)
Lemma expectErr_one_type {T : Type} `{Movable T} (msg : string)
  (r : Result T T) (e : T) (w : World Env) :
  Erre r = Some e ->
  Result.expectErr msg r w =
  Returns (e, mkResult (Oke r) (Some (moved_from e))) w.
Proof.
  intros Herr. unfold Result.expectErr, Result.isErr. now rewrite Herr.
Qed.

(** [err()] returns the error and empties the slot. *)
Lemma err_returns_payload (r : Result Ok Err) (e : Err) (w : World Env) :
  Erre r = Some e ->
  Result.err r w = Returns (e, mkResult (Oke r) None) w.
Proof. intros Herr. unfold Result.err. now rewrite Herr. Qed.

(** No call of [operator!=] returns. *)
Lemma operator_ne_no_fuel (fuel : nat) :
  forall this rhs : Result Ok Err, Result.operator_ne fuel this rhs = None.
Proof.
  induction fuel as [|fuel IH]; intros this rhs; simpl; [reflexivity | apply IH].
Qed.

Lemma operator_ne_returns_nothing (this rhs : Result Ok Err) (b : bool) :
  ~ Result.operator_ne_returns this rhs b.
Proof. intros Hret. induction Hret as [this rhs b _ IH]. exact IH. Qed.

End CombinatorFacts.

(** [err<int, std::string>("boom").map(x => x * 2)]. *)
Lemma map_identity_on_err_witness :
  Result.isOk (mkResult (None : option Z) (Some "boom")) = false /\
  Erre (mkResult (None : option Z) (Some "boom")) = Some "boom" /\
  Result.map (fun x => ret (x * 2)) (mkResult None (Some "boom")) (mkWorld [] tt) =
  Returns (mkResult None (Some "boom")) (mkWorld [] tt).
Proof.
  split; [reflexivity|]. split; [reflexivity|].
  apply (map_identity_on_err Z (fun x => ret (x * 2))
           (mkResult None (Some "boom")) "boom" (mkWorld [] tt));
    reflexivity.
Defined.

(** [ok<int, std::string>(5)], as in the test of [mapOrElse]. *)
Lemma mapOrElse_calls_exactly_one_witness :
  exclusive (mkResult (Some 5) (None : option string)) /\
  exists v, Oke (mkResult (Some 5) (None : option string)) = Some v /\
            forall w : World unit,
              Result.mapOrElse (fun s => ret (if String.eqb s "error" then 1 else 2))
                               (fun x => ret (x * 3))
                               (mkResult (Some 5) None) w =
              ret (v * 3) w.
Proof.
  assert (Hex : exclusive (mkResult (Some 5) (None : option string)))
    by (cbv; discriminate).
  split; [exact Hex|].
  exact (mapOrElse_calls_exactly_one Z
           (fun s => ret (if String.eqb s "error" then 1 else 2))
           (fun x => ret (x * 3))
           (mkResult (Some 5) None) Hex).
Defined.

(** [ok<int, std::string>(5)], [value()] twice. *)
Lemma value_twice_exits_witness :
  Oke (mkResult (Some 5) (None : option string)) = Some 5 /\
  exists r' : Result Z string,
    Result.value (mkResult (Some 5) None) (mkWorld [] tt) =
    Returns (5, r') (mkWorld [] tt) /\
    Oke r' = None /\
    Erre r' = None /\
    Result.value r' (mkWorld [] tt) =
    Exits 1 (mkWorld
               ["Trying to get the value of a result which doesn't have a value"]
               tt).
Proof.
  split; [reflexivity|].
  apply (value_twice_exits (mkResult (Some 5) (None : option string)) 5
           (mkWorld [] tt)).
  reflexivity.
Defined.

(** [err<int, std::string>("error").valueOr(10)], as in the test. *)
Lemma valueOr_on_err_keeps_err_witness :
  Result.isErr (mkResult (None : option Z) (Some "error")) = true /\
  Result.isOk (mkResult (None : option Z) (Some "error")) = false /\
  exists r' : Result Z string,
    Result.valueOr 10 (mkResult None (Some "error")) (mkWorld [] tt) =
    Returns (10, r') (mkWorld [] tt) /\
    r' = mkResult None (Some "error") /\
    Result.isErr r' = true.
Proof.
  split; [reflexivity|]. split; [reflexivity|].
  apply (valueOr_on_err_keeps_err (mkResult (None : option Z) (Some "error")) 10
           (mkWorld [] tt));
    reflexivity.
Defined.

(** With callables that count their calls: one call is counted, on the side
    [isOk()] selects. *)
Lemma mapOrElse_counts_one_call {Ok Err : Type} (r : Result Ok Err)
  (w : World (nat * nat)) :
  exclusive r ->
  exists w' : World (nat * nat),
    Result.mapOrElse count_left count_right r w = Returns tt w' /\
    env w' = (if Result.isOk r
              then (fst (env w), S (snd (env w)))
              else (S (fst (env w)), snd (env w))).
Proof.
  intros Hex. destruct (exclusive_cases r Hex) as [[v ->] | [e ->]];
    eexists; split; reflexivity.
Qed.

(** C4. The three chains of the test: [ok(2).andThen(sq).andThen(sq)] returns
    what [ok(16)] returns, [ok(2).andThen(er).andThen(sq)] what [err(2)]
    returns and [err(3).andThen(sq).andThen(sq)] what [err(3)] returns, and
    [operator==] holds in each case. For every [F], [andThen(F)] on a [Result]
    holding a value is the call of [F] on that value, and on a [Result]
    holding only an error it returns a [Result] holding that error, without
    calling [F]. *)
Theorem andThen_short_circuit (Env : Type) (w : World Env) :
  let chain r f g := (a <- r ;; b <- Result.andThen f a ;; Result.andThen g b) in
  let same (x y : M Env (Result Z Z)) :=
    (a <- x ;; b <- y ;; ret (Result.operator_eq a b)) in
  (chain (ok 2) tests.sq tests.sq w = Returns (mkResult (Some 16) None) w /\
   same (chain (ok 2) tests.sq tests.sq) (ok 16) w = Returns true w) /\
  (chain (ok 2) tests.er tests.sq w = Returns (mkResult None (Some 2)) w /\
   same (chain (ok 2) tests.er tests.sq) (err 2) w = Returns true w) /\
  (chain (err 3) tests.sq tests.sq w = Returns (mkResult None (Some 3)) w /\
   same (chain (err 3) tests.sq tests.sq) (err 3) w = Returns true w) /\
  (forall (Ok Err : Type) (F : Ok -> M Env (Result Ok Err)) (v : Ok) (w' : World Env),
      Result.andThen F (mkResult (Some v) None) w' = F v w') /\
  (forall (Ok Err : Type) (F : Ok -> M Env (Result Ok Err)) (e : Err) (w' : World Env),
      Result.andThen F (mkResult None (Some e)) w' =
      Returns (mkResult None (Some e)) w').
Proof.
  cbv zeta. repeat split.
Qed.

(** C5, at [Result<bool, int>]: [err<bool, int>(3).expectErr(msg)] returns the
    [bool] [true], which is not the error 3 that [err()] returns there, and it
    leaves the error slot holding a value where [err()] leaves it empty. *)
Theorem expectErr_returns_Ok_type (msg : string) (w : World unit) :
  (r <- err (Ok := bool) 3 ;; Result.expectErr msg r) w =
  Returns (true, mkResult None (Some 3)) w /\
  (r <- err (Ok := bool) 3 ;; Result.err r) w =
  Returns (3, mkResult None None) w.
Proof. split; reflexivity. Qed.

(** C9, at [ok<int, int>(1) != ok<int, int>(2)]: the call returns at no depth
    of nested calls, and no evaluation of it returns a [bool]; the negation of
    [operator==] is [true] there. *)
Theorem operator_ne_never_returns :
  let a : Result Z Z := mkResult (Some 1) None in
  let b : Result Z Z := mkResult (Some 2) None in
  (forall fuel : nat, Result.operator_ne fuel a b = None) /\
  (forall v : bool, ~ Result.operator_ne_returns a b v) /\
  negb (Result.operator_eq a b) = true.
Proof.
  cbv zeta. repeat split.
  - intros fuel. apply operator_ne_no_fuel.
  - intros v. apply operator_ne_returns_nothing.
Qed.

(** * Further properties of the two headers *)

(** Splits on which of the two slots of an exclusive [Result] holds a value. *)
Ltac by_slot r H :=
  let v := fresh "v" in
  let e := fresh "e" in
  destruct (exclusive_cases r H) as [[v ->] | [e ->]].

(** Runs a computation whose outcome decides the rest. *)
Ltac run_call c :=
  let a := fresh "a" in
  let w := fresh "w" in
  destruct c as [a w | ? ? | | ]; try reflexivity.

Lemma exclusive_ok {Ok Err : Type} (v : Ok) :
  exclusive (mkResult (Some v) (None : option Err)).
Proof. cbv. discriminate. Qed.

Lemma exclusive_err {Ok Err : Type} (e : Err) :
  exclusive (mkResult (None : option Ok) (Some e)).
Proof. cbv. discriminate. Qed.

(** ** How the combinators compose *)

Section Composition.
Context {Env Ok Err : Type}.

(** X1. [map] is a functor on exclusive Results: mapping the callable that
    only returns its argument gives the Result back, and mapping [F] and then
    [G] is mapping the callable that calls [F] and then [G]; the callables
    may have any effect. *)
Theorem map_functor (U V : Type) (F : Ok -> M Env U) (G : U -> M Env V)
  (r : Result Ok Err) (w : World Env) :
  exclusive r ->
  Result.map ret r w = Returns r w /\
  (r' <- Result.map F r ;; Result.map G r') w =
  Result.map (fun v => u <- F v ;; G u) r w.
Proof.
  intros Hex. by_slot r Hex; split; try reflexivity.
  cbv. run_call (F v w).
Qed.


(** X3. [andThen] with [ok] obeys the laws of a monad: [ok(v).andThen(F)] is
    the call [F(v)]; on an exclusive Result [andThen(ok)] gives the Result
    back; and chaining [F] then [G] is chaining the callable that calls [F]
    and chains [G] on what it returns. *)
Theorem andThen_monad (F G : Ok -> M Env (Result Ok Err)) (r : Result Ok Err)
  (w : World Env) :
  exclusive r ->
  (forall v : Ok, (a <- ok v ;; Result.andThen F a) w = F v w) /\
  Result.andThen ok r w = Returns r w /\
  (a <- Result.andThen F r ;; Result.andThen G a) w =
  Result.andThen (fun v => a <- F v ;; Result.andThen G a) r w.
Proof.
  intros Hex. split; [reflexivity|]. by_slot r Hex; split; reflexivity.
Qed.

(** X4. [orElse] with [err] obeys the same laws on the error slot:
    [err(e).orElse(F)] is the call [F(e)]; on an exclusive Result
    [orElse(err)] gives the Result back; and chaining [F] then [G] is
    chaining the callable that calls [F] and chains [G] on what it returns. *)
Theorem orElse_monad (F G : Err -> M Env (Result Ok Err)) (r : Result Ok Err)
  (w : World Env) :
  exclusive r ->
  (forall e : Err, (a <- err e ;; Result.orElse F a) w = F e w) /\
  Result.orElse core.err r w = Returns r w /\
  (a <- Result.orElse F r ;; Result.orElse G a) w =
  Result.orElse (fun e => a <- F e ;; Result.orElse G a) r w.
Proof.
  intros Hex. split; [reflexivity|]. by_slot r Hex; split; reflexivity.
Qed.

(** X5. On an exclusive Result [map(F)] is [andThen] of the callable that
    calls [F] and wraps what it returns with [ok], and [mapErr(F)] is
    [orElse] of the callable that calls [F] and wraps with [err]. *)
Theorem map_by_andThen (U : Type) (F : Ok -> M Env Ok) (G : Err -> M Env U)
  (r : Result Ok Err) (w : World Env) :
  exclusive r ->
  Result.map F r w = Result.andThen (fun v => u <- F v ;; ok u) r w /\
  Result.mapErr G r w = Result.orElse (fun e => u <- G e ;; err u) r w.
Proof.
  intros Hex. by_slot r Hex; split; reflexivity.
Qed.

(** X6. On an exclusive Result [mapOr(Default, F)] is [mapOrElse] with the
    callable that ignores the error and returns [Default]. The two differ on
    a Result with neither slot holding a value: [mapOr] returns [Default],
    [mapOrElse] dereferences the empty error slot. *)
Theorem mapOr_by_mapOrElse (U : Type) (Default : U) (Df : Err -> M Env U)
  (F : Ok -> M Env U) (r : Result Ok Err) (w : World Env) :
  exclusive r ->
  Result.mapOr Default F r w = Result.mapOrElse (fun _ => ret Default) F r w /\
  Result.mapOr Default F (mkResult None (None : option Err)) w = Returns Default w /\
  Result.mapOrElse Df F (mkResult None None) w = Undefined.
Proof.
  intros Hex. by_slot r Hex; repeat split.
Qed.

(** X7. [and_] on exclusive Results returns an exclusive Result that holds a
    value exactly when both do: it is [Res] when the receiver holds a value,
    and otherwise holds the error of the receiver. *)
Theorem and_table (U : Type) (Res : Result U Err) (this : Result Ok Err)
  (w : World Env) :
  exclusive this ->
  exclusive Res ->
  exists r : Result U Err,
    Result.and_ Res this w = Returns r w /\
    exclusive r /\
    Result.isOk r = Result.isOk this && Result.isOk Res /\
    (Result.isOk this = true -> r = Res) /\
    (Result.isOk this = false -> Oke r = None /\ Erre r = Erre this).
Proof.
  intros Hthis HRes. by_slot this Hthis.
  - exists Res. simpl. repeat split; easy.
  - exists (mkResult None (Some e)). simpl. repeat split; easy.
Qed.

(** X8. [ore] on exclusive Results returns an exclusive Result that holds a
    value exactly when one of them does: it holds the value of the receiver
    when there is one, and otherwise is [Res]. *)
Theorem ore_table (U : Type) (Res : Result Ok U) (this : Result Ok Err)
  (w : World Env) :
  exclusive this ->
  exclusive Res ->
  exists r : Result Ok U,
    Result.ore Res this w = Returns r w /\
    exclusive r /\
    Result.isOk r = Result.isOk this || Result.isOk Res /\
    (Result.isOk this = true -> Oke r = Oke this /\ Erre r = None) /\
    (Result.isOk this = false -> r = Res).
Proof.
  intros Hthis HRes. by_slot this Hthis.
  - exists (mkResult (Some v) None). simpl. repeat split; easy.
  - exists Res. simpl. repeat split; easy.
Qed.

End Composition.

(** ** Taking the payload out *)

Section Consumption.
Context {Env Ok Err : Type}.

(** X9. On an exclusive Result exactly one of [value()] and [err()] returns:
    the one whose slot holds the payload returns it and leaves both slots
    empty, the other writes its diagnostic line and exits with status 1. *)
Theorem value_xor_err (r : Result Ok Err) (w : World Env) :
  exclusive r ->
  (exists v, Oke r = Some v /\
             Result.value r w = Returns (v, mkResult None None) w /\
             Result.err r w =
             Exits 1 (mkWorld
                        (clog w ++ ["Trying to get the error of a result which doesn't have an error"])
                        (env w))) \/
  (exists e, Erre r = Some e /\
             Result.err r w = Returns (e, mkResult None None) w /\
             Result.value r w =
             Exits 1 (mkWorld
                        (clog w ++ ["Trying to get the value of a result which doesn't have a value"])
                        (env w))).
Proof.
  intros Hex. by_slot r Hex; [left; exists v | right; exists e]; repeat split.
Qed.

(** X10. Once [value()] has taken the value of a Result that held only a
    value, [map] and [mapErr] on it call nothing: each writes its own
    diagnostic line and exits with status 1. *)
Theorem map_after_value_exits (U V : Type) (F : Ok -> M Env U)
  (G : Err -> M Env V) (r : Result Ok Err) (v : Ok) (w : World Env) :
  Oke r = Some v ->
  Erre r = None ->
  (p <- Result.value r ;; Result.map F (snd p)) w =
  Exits 1 (mkWorld
             (clog w ++ ["Trying to apply a map function to a Result that has no value and no error."])
             (env w)) /\
  (p <- Result.value r ;; Result.mapErr G (snd p)) w =
  Exits 1 (mkWorld
             (clog w ++ ["Trying to apply a mapErr function to a Result that has no value and no error."])
             (env w)).
Proof.
  intros Hv He. destruct r as [o e']. simpl in Hv, He. subst o e'.
  split; reflexivity.
Qed.

(** X11. [valueOr] takes the value when there is one: the first call on a
    Result holding [v] returns [v] and empties the value slot, so a second
    call returns its default; the error slot is not touched. *)
Theorem valueOr_twice (r : Result Ok Err) (v d d' : Ok) (w : World Env) :
  Oke r = Some v ->
  (p <- Result.valueOr d r ;;
   q <- Result.valueOr d' (snd p) ;;
   ret (fst p, fst q, snd q)) w =
  Returns (v, d', mkResult None (Erre r)) w.
Proof.
  intros Hv. destruct r as [o e]. simpl in Hv. subst o. reflexivity.
Qed.

(** X12. [errOr] takes the error when there is one: the first call on a
    Result holding the error [e] returns [e] and empties the error slot, so a
    second call returns its default; the value slot is not touched. *)
Theorem errOr_twice (r : Result Ok Err) (e d d' : Err) (w : World Env) :
  Erre r = Some e ->
  (p <- Result.errOr d r ;;
   q <- Result.errOr d' (snd p) ;;
   ret (fst p, fst q, snd q)) w =
  Returns (e, d', mkResult (Oke r) None) w.
Proof.
  intros He. destruct r as [o e0]. simpl in He. subst e0. reflexivity.
Qed.

(** X13. [err()] on a Result holding an error returns it and empties the
    error slot; [err()] on what is left writes its diagnostic line and exits
    with status 1. *)
Theorem err_twice_exits (r : Result Ok Err) (e : Err) (w : World Env) :
  Erre r = Some e ->
  Result.err r w = Returns (e, mkResult (Oke r) None) w /\
  (p <- Result.err r ;; Result.err (snd p)) w =
  Exits 1 (mkWorld
             (clog w ++ ["Trying to get the error of a result which doesn't have an error"])
             (env w)).
Proof.
  intros He. destruct r as [o e0]. simpl in He. subst e0. split; reflexivity.
Qed.

(** X14. [expect] does not empty the slot: on a Result holding [v] it returns
    [v] and the Result still reports [isOk()], holding the moved-from value,
    so a second [expect] returns that moved-from value with nothing written
    and no exit. *)
Theorem expect_leaves_slot `{Movable Ok} (msg msg' : string)
  (r : Result Ok Err) (v : Ok) (w : World Env) :
  Oke r = Some v ->
  exists r' : Result Ok Err,
    Result.expect msg r w = Returns (v, r') w /\
    Result.isOk r' = true /\
    Erre r' = Erre r /\
    (p <- Result.expect msg r ;; Result.expect msg' (snd p)) w =
    Returns (moved_from v,
             mkResult (Some (moved_from (moved_from v))) (Erre r)) w.
Proof.
  intros Hv. destruct r as [o e]. simpl in Hv. subst o.
  exists (mkResult (Some (moved_from v)) e). repeat split.
Qed.

End Consumption.

(** ** Comparing *)

Section Comparison.
Context {Ok Err : Type} `{EqualityComparable Ok} `{EqualityComparable Err}.

(** [operator==] of [std::optional] over a payload type whose [operator==]
    holds exactly between equal payloads. *)
Lemma optional_eq_decides {T : Type} `{EqualityComparable T} (a b : option T) :
  (forall x y : T, op_eq x y = true <-> x = y) ->
  (optional_eq a b = true <-> a = b).
Proof.
  intros Hlaw. destruct a as [x|], b as [y|]; simpl.
  - split.
    + intros Heq. apply Hlaw in Heq. now subst.
    + intros Heq. injection Heq as ->. now apply Hlaw.
  - split; discriminate.
  - split; discriminate.
  - split; reflexivity.
Qed.

(** X15. Where [operator==] of both payload types holds exactly between equal
    payloads, [operator==] of [Result] holds exactly between Results with the
    same two slots. *)
Theorem operator_eq_decides (a b : Result Ok Err) :
  (forall x y : Ok, op_eq x y = true <-> x = y) ->
  (forall x y : Err, op_eq x y = true <-> x = y) ->
  (Result.operator_eq a b = true <-> a = b).
Proof.
  intros Hok Herr. unfold Result.operator_eq. split.
  - intros Heq. apply andb_true_iff in Heq as [Hv He].
    apply (optional_eq_decides _ _ Hok) in Hv.
    apply (optional_eq_decides _ _ Herr) in He.
    destruct a, b; simpl in *. now subst.
  - intros ->. apply andb_true_iff.
    split; now apply optional_eq_decides.
Qed.

(** X16. Under the same condition [contains(x)] holds exactly when the value
    slot holds [x], and [containsErr(y)] exactly when the error slot holds
    [y]; in particular [contains] is false on every Result without a value. *)
Theorem contains_iff (x : Ok) (y : Err) (r : Result Ok Err) :
  (forall x y : Ok, op_eq x y = true <-> x = y) ->
  (forall x y : Err, op_eq x y = true <-> x = y) ->
  (Result.contains x r = true <-> Oke r = Some x) /\
  (Result.containsErr y r = true <-> Erre r = Some y).
Proof.
  intros Hok Herr. destruct r as [o e].
  unfold Result.contains, Result.containsErr, Result.isOk, Result.isErr.
  simpl. split.
  - destruct o as [v|]; simpl; [|split; discriminate].
    destruct (op_eq v x) eqn:E; split; intros Heq; try discriminate Heq.
    + apply Hok in E. now subst.
    + reflexivity.
    + injection Heq as ->. rewrite (proj2 (Hok x x) eq_refl) in E.
      discriminate E.
  - destruct e as [v|]; simpl; [|split; discriminate].
    destruct (op_eq v y) eqn:E; split; intros Heq; try discriminate Heq.
    + apply Herr in E. now subst.
    + reflexivity.
    + injection Heq as ->. rewrite (proj2 (Herr y y) eq_refl) in E.
      discriminate E.
Qed.

End Comparison.

(** ** Moving a Result *)

Section Moving.
Context {Ok Err : Type} `{Movable Ok} `{Movable Err}.

Lemma assign_same (objs : Objects Ok Err) (a : nat) (r : Result Ok Err) :
  assign objs a r a = r.
Proof. unfold assign. now rewrite Nat.eqb_refl. Qed.

Lemma assign_other (objs : Objects Ok Err) (a b : nat) (r : Result Ok Err) :
  b <> a -> assign objs a r b = objs b.
Proof. intros Hne. unfold assign. now apply Nat.eqb_neq in Hne as ->. Qed.

Lemma has_value_moved {T : Type} (f : T -> T) (o : option T) :
  has_value (option_map f o) = has_value o.
Proof. now destruct o. Qed.

(** Reads objects back after assignments to the two addresses. *)
Ltac read_objects Hne Hflip :=
  repeat (first [ rewrite assign_same
                | rewrite (assign_other _ _ _ _ Hne)
                | rewrite (assign_other _ _ _ _ Hflip) ];
          cbn [Oke Erre]).

Lemma move_assign_receiver (this other : nat) (objs : Objects Ok Err) :
  this <> other ->
  operator_assign this other objs this = objs other.
Proof.
  intros Hne. assert (Hflip : other <> this) by congruence.
  unfold operator_assign, optional_move.
  apply Nat.eqb_neq in Hne as Hneb. rewrite Hneb. cbn [negb fst snd].
  read_objects Hne Hflip. now destruct (objs other).
Qed.

Lemma move_assign_argument (this other : nat) (objs : Objects Ok Err) :
  this <> other ->
  operator_assign this other objs other =
  mkResult (option_map moved_from (Oke (objs other)))
           (option_map moved_from (Erre (objs other))).
Proof.
  intros Hne. assert (Hflip : other <> this) by congruence.
  unfold operator_assign, optional_move.
  apply Nat.eqb_neq in Hne as Hneb. rewrite Hneb. cbn [negb fst snd].
  read_objects Hne Hflip. reflexivity.
Qed.

(** X17. Move assignment between two objects gives the receiver both slots
    of the argument and leaves the argument with the same slots holding a
    value as before, their payloads moved-from: the argument still reports
    the same [isOk()] and [isErr()]. No third object changes, and assigning
    an object to itself changes nothing. *)
Theorem move_assign_transfers (this other : nat) (objs : Objects Ok Err) :
  this <> other ->
  operator_assign this other objs this = objs other /\
  operator_assign this other objs other =
  mkResult (option_map moved_from (Oke (objs other)))
           (option_map moved_from (Erre (objs other))) /\
  Result.isOk (operator_assign this other objs other) = Result.isOk (objs other) /\
  Result.isErr (operator_assign this other objs other) = Result.isErr (objs other) /\
  (forall a : nat, a <> this -> a <> other ->
                   operator_assign this other objs a = objs a) /\
  operator_assign this this objs = objs.
Proof.
  intros Hne.
  pose proof (move_assign_argument this other objs Hne) as Hother.
  repeat split.
  - now apply move_assign_receiver.
  - exact Hother.
  - rewrite Hother. apply has_value_moved.
  - rewrite Hother. apply has_value_moved.
  - intros a Hthis Hoth. unfold operator_assign, optional_move.
    apply Nat.eqb_neq in Hne as ->. cbn [negb fst snd].
    now rewrite !assign_other by assumption.
  - unfold operator_assign. now rewrite Nat.eqb_refl.
Qed.

(** X18. Move construction from an exclusive Result: the new object holds
    what the source held, and both the new object and the source satisfy the
    invariant afterwards; the source is not emptied. *)
Theorem move_ctor_keeps_exclusive (this other : nat) (objs : Objects Ok Err) :
  this <> other ->
  exclusive (objs other) ->
  Result_move_ctor this other objs this = objs other /\
  exclusive (Result_move_ctor this other objs this) /\
  exclusive (Result_move_ctor this other objs other) /\
  Result.isOk (Result_move_ctor this other objs other) = Result.isOk (objs other).
Proof.
  intros Hne Hex. assert (Hflip : other <> this) by congruence.
  unfold Result_move_ctor.
  rewrite (move_assign_receiver this other _ Hne).
  rewrite (move_assign_argument this other _ Hne).
  read_objects Hne Hflip.
  by_slot (objs other) Hex; cbn; repeat split; discriminate.
Qed.

End Moving.

(** ** Printing *)

(** X19. [operator<<] on an exclusive Result writes one bracketed payload,
    [Ok{...}] for a value and [Err{...}] for an error; on a Result whose
    payload [value()] or [err()] has taken it writes nothing. *)
Theorem print_one_payload {Env Ok Err : Type} `{Streamable Ok} `{Streamable Err}
  (os : string) (r : Result Ok Err) (w : World Env) :
  exclusive r ->
  (exists v, Oke r = Some v /\
     operator_shl os r = String.append (stream_out (String.append os "Ok{") v) "}" /\
     (p <- Result.value r ;; ret (operator_shl os (snd p))) w = Returns os w) \/
  (exists e, Erre r = Some e /\
     operator_shl os r = String.append (stream_out (String.append os "Err{") e) "}" /\
     (p <- Result.err r ;; ret (operator_shl os (snd p))) w = Returns os w).
Proof.
  intros Hex. by_slot r Hex; [left; exists v | right; exists e]; repeat split.
Qed.

(** ** The helpers of the tests *)

Section TestHelpers.
Context {Env : Type}.

Lemma int_mul_in_range (x y : Z) (w : World Env) :
  INT_MIN <= x * y <= INT_MAX -> int_mul x y w = Returns (x * y) w.
Proof.
  intros [Hlo Hhi]. unfold int_mul.
  apply Z.leb_le in Hlo as ->. now apply Z.leb_le in Hhi as ->.
Qed.

Lemma int_mul_overflow (x y : Z) (w : World Env) :
  INT_MAX < x * y -> int_mul (Env := Env) x y w = Undefined.
Proof.
  intros Hhi. unfold int_mul.
  apply Z.leb_gt in Hhi as ->. now rewrite andb_false_r.
Qed.

Lemma square_le_bound (x b : Z) : Z.abs x <= b -> x * x <= b * b.
Proof. intros Hx. rewrite <- Z.abs_square. nia. Qed.

Lemma square_ge_bound (x b : Z) : 0 <= b -> b <= Z.abs x -> b * b <= x * x.
Proof. intros Hb Hx. rewrite <- (Z.abs_square x). nia. Qed.

Lemma sq_in_range (x : Z) (w : World Env) :
  Z.abs x <= 46340 ->
  tests.sq x w = Returns (mkResult (Some (x * x)) None) w.
Proof.
  intros Hx. apply square_le_bound in Hx. unfold tests.sq.
  rewrite (bind_returns _ _ w w (x * x)); [reflexivity|].
  apply int_mul_in_range. unfold INT_MIN, INT_MAX.
  pose proof (Z.square_nonneg x). lia.
Qed.

Lemma sq_overflow (x : Z) (w : World Env) :
  46340 < Z.abs x -> tests.sq (Env := Env) x w = Undefined.
Proof.
  intros Hx.
  assert (Hsq : 46341 * 46341 <= x * x) by (apply square_ge_bound; lia).
  unfold tests.sq, bind. rewrite int_mul_overflow; [reflexivity|].
  unfold INT_MAX. lia.
Qed.

(** X20. [sq] returns [ok(x * x)] exactly for the arguments of absolute value
    at most 46340; beyond, the product overflows [int] and the call is
    undefined. *)
Theorem sq_range (x : Z) (w : World Env) :
  tests.sq x w =
  if Z.abs x <=? 46340
  then Returns (mkResult (Some (x * x)) None) w
  else Undefined.
Proof.
  destruct (Z.abs x <=? 46340) eqn:Hx.
  - apply Z.leb_le in Hx. now apply sq_in_range.
  - apply Z.leb_gt in Hx. now apply sq_overflow.
Qed.

(** X21. The chain of the test, for every start value:
    [ok(x).andThen(sq).andThen(sq)] returns [ok] of the fourth power of [x]
    exactly when the absolute value of [x] is at most 215, and is undefined
    beyond. *)
Theorem andThen_sq_sq_range (x : Z) (w : World Env) :
  (a <- ok x ;; b <- Result.andThen tests.sq a ;; Result.andThen tests.sq b) w =
  if Z.abs x <=? 215
  then Returns (mkResult (Some (x * x * (x * x))) None) w
  else Undefined.
Proof.
  change ((a <- ok x ;; b <- Result.andThen tests.sq a ;;
           Result.andThen tests.sq b) w)
    with ((b <- tests.sq x ;; Result.andThen tests.sq b) w).
  unfold bind at 1.
  destruct (Z.abs x <=? 215) eqn:Hx.
  - apply Z.leb_le in Hx.
    rewrite sq_in_range by lia.
    change (Result.andThen tests.sq (mkResult (Some (x * x)) None) w)
      with (tests.sq (Env := Env) (x * x) w).
    apply sq_in_range. apply square_le_bound in Hx.
    pose proof (Z.square_nonneg x). rewrite Z.abs_eq by lia. lia.
  - apply Z.leb_gt in Hx.
    destruct (Z_le_gt_dec (Z.abs x) 46340) as [Hin | Hout].
    + rewrite sq_in_range by exact Hin.
      change (Result.andThen tests.sq (mkResult (Some (x * x)) None) w)
        with (tests.sq (Env := Env) (x * x) w).
      apply sq_overflow.
      assert (Hge : 216 * 216 <= x * x) by (apply square_ge_bound; lia).
      rewrite Z.abs_eq by lia. lia.
    + rewrite sq_overflow by lia. reflexivity.
Qed.

(** X22. [orElse] recovers from an error and then stops calling: for an
    error [e] of absolute value at most 46340, [err(e).orElse(sq).orElse(G)]
    returns [ok(e * e)] whatever [G] is, [G] not being called. *)
Theorem orElse_recovers_once (G : Z -> M Env (Result Z Z)) (e : Z)
  (w : World Env) :
  Z.abs e <= 46340 ->
  (a <- err e ;; b <- Result.orElse tests.sq a ;; Result.orElse G b) w =
  Returns (mkResult (Some (e * e)) None) w.
Proof.
  intros He.
  change ((a <- err e ;; b <- Result.orElse tests.sq a ;; Result.orElse G b) w)
    with ((b <- tests.sq e ;; Result.orElse G b) w).
  unfold bind at 1. now rewrite sq_in_range.
Qed.

End TestHelpers.

(** ** The properties above at concrete inputs *)

Lemma map_functor_witness :
  exclusive (mkResult (Some 5) (None : option string)) /\
  (Result.map ret (mkResult (Some 5) (None : option string)) (mkWorld [] tt) =
   Returns (mkResult (Some 5) None) (mkWorld [] tt) /\
   (r' <- Result.map (fun x => ret (x + 1)) (mkResult (Some 5) (None : option string)) ;;
    Result.map (fun x => ret (x * 2)) r') (mkWorld [] tt) =
   Result.map (fun v => u <- ret (v + 1) ;; ret (u * 2))
     (mkResult (Some 5) (None : option string)) (mkWorld [] tt)).
Proof.
  assert (Hex : exclusive (mkResult (Some 5) (None : option string)))
    by (cbv; discriminate).
  split; [exact Hex|].
  apply (map_functor Z Z (fun x => ret (x + 1)) (fun x => ret (x * 2))
           (mkResult (Some 5) None) (mkWorld [] tt) Hex).
Defined.


Lemma andThen_monad_witness :
  exclusive (mkResult (Some 2) (None : option Z)) /\
  ((forall v : Z, (a <- ok v ;; Result.andThen tests.sq a) (mkWorld [] tt) =
                  tests.sq v (mkWorld [] tt)) /\
   Result.andThen ok (mkResult (Some 2) (None : option Z)) (mkWorld [] tt) =
   Returns (mkResult (Some 2) None) (mkWorld [] tt) /\
   (a <- Result.andThen tests.sq (mkResult (Some 2) None) ;;
    Result.andThen tests.er a) (mkWorld [] tt) =
   Result.andThen (fun v => a <- tests.sq v ;; Result.andThen tests.er a)
     (mkResult (Some 2) None) (mkWorld [] tt)).
Proof.
  assert (Hex : exclusive (mkResult (Some 2) (None : option Z)))
    by (cbv; discriminate).
  split; [exact Hex|].
  apply (andThen_monad tests.sq tests.er (mkResult (Some 2) None)
           (mkWorld [] tt) Hex).
Defined.

Lemma orElse_monad_witness :
  exclusive (mkResult (None : option Z) (Some 3)) /\
  ((forall e : Z, (a <- err e ;; Result.orElse tests.sq a) (mkWorld [] tt) =
                  tests.sq e (mkWorld [] tt)) /\
   Result.orElse err (mkResult (None : option Z) (Some 3)) (mkWorld [] tt) =
   Returns (mkResult None (Some 3)) (mkWorld [] tt) /\
   (a <- Result.orElse tests.sq (mkResult None (Some 3)) ;;
    Result.orElse tests.er a) (mkWorld [] tt) =
   Result.orElse (fun e => a <- tests.sq e ;; Result.orElse tests.er a)
     (mkResult None (Some 3)) (mkWorld [] tt)).
Proof.
  assert (Hex : exclusive (mkResult (None : option Z) (Some 3)))
    by (cbv; discriminate).
  split; [exact Hex|].
  apply (orElse_monad tests.sq tests.er (mkResult None (Some 3))
           (mkWorld [] tt) Hex).
Defined.

Lemma map_by_andThen_witness :
  exclusive (mkResult (Some 5) (None : option string)) /\
  (Result.map (fun x => ret (x * 3)) (mkResult (Some 5) (None : option string))
     (mkWorld [] tt) =
   Result.andThen (fun v => u <- ret (v * 3) ;; ok u)
     (mkResult (Some 5) None) (mkWorld [] tt) /\
   Result.mapErr (fun s => ret (String.eqb s "error"))
     (mkResult (Some 5) (None : option string)) (mkWorld [] tt) =
   Result.orElse (fun e => u <- ret (String.eqb e "error") ;; err u)
     (mkResult (Some 5) None) (mkWorld [] tt)).
Proof.
  assert (Hex : exclusive (mkResult (Some 5) (None : option string)))
    by (cbv; discriminate).
  split; [exact Hex|].
  apply (map_by_andThen bool (fun x => ret (x * 3))
           (fun s => ret (String.eqb s "error"))
           (mkResult (Some 5) None) (mkWorld [] tt) Hex).
Defined.

Lemma mapOr_by_mapOrElse_witness :
  exclusive (mkResult (None : option Z) (Some "error")) /\
  (Result.mapOr 10 (fun x => ret (x * 3)) (mkResult None (Some "error"))
     (mkWorld [] tt) =
   Result.mapOrElse (fun _ => ret 10) (fun x => ret (x * 3))
     (mkResult None (Some "error")) (mkWorld [] tt) /\
   Result.mapOr 10 (fun x => ret (x * 3)) (mkResult None (None : option string))
     (mkWorld [] tt) = Returns 10 (mkWorld [] tt) /\
   Result.mapOrElse (fun s : string => ret 1) (fun x => ret (x * 3))
     (mkResult None None) (mkWorld [] tt) = Undefined).
Proof.
  assert (Hex : exclusive (mkResult (None : option Z) (Some "error")))
    by (cbv; discriminate).
  split; [exact Hex|].
  apply (mapOr_by_mapOrElse Z 10 (fun s : string => ret 1)
           (fun x => ret (x * 3))
           (mkResult None (Some "error")) (mkWorld [] tt) Hex).
Defined.

(** [ok<int, std::string>(2).and_(err<std::string, std::string>("late error"))],
    as in the test. *)
Lemma and_table_witness :
  exclusive (mkResult (Some 2) (None : option string)) /\
  exclusive (mkResult (None : option string) (Some "late error")) /\
  exists r : Result string string,
    Result.and_ (mkResult None (Some "late error"))
      (mkResult (Some 2) (None : option string)) (mkWorld [] tt) =
    Returns r (mkWorld [] tt) /\
    exclusive r /\
    Result.isOk r =
    Result.isOk (mkResult (Some 2) (None : option string)) &&
    Result.isOk (mkResult (None : option string) (Some "late error")) /\
    (Result.isOk (mkResult (Some 2) (None : option string)) = true ->
     r = mkResult None (Some "late error")) /\
    (Result.isOk (mkResult (Some 2) (None : option string)) = false ->
     Oke r = None /\ Erre r = Erre (mkResult (Some 2) (None : option string))).
Proof.
  assert (Hthis : exclusive (mkResult (Some 2) (None : option string)))
    by (cbv; discriminate).
  assert (HRes : exclusive (mkResult (None : option string) (Some "late error")))
    by (cbv; discriminate).
  split; [exact Hthis|]. split; [exact HRes|].
  apply (and_table string (mkResult None (Some "late error"))
           (mkResult (Some 2) None) (mkWorld [] tt) Hthis HRes).
Defined.

Lemma ore_table_witness :
  exclusive (mkResult (None : option Z) (Some "early")) /\
  exclusive (mkResult (Some 7) (None : option bool)) /\
  exists r : Result Z bool,
    Result.ore (mkResult (Some 7) None)
      (mkResult (None : option Z) (Some "early")) (mkWorld [] tt) =
    Returns r (mkWorld [] tt) /\
    exclusive r /\
    Result.isOk r =
    Result.isOk (mkResult (None : option Z) (Some "early")) ||
    Result.isOk (mkResult (Some 7) (None : option bool)) /\
    (Result.isOk (mkResult (None : option Z) (Some "early")) = true ->
     Oke r = Oke (mkResult (None : option Z) (Some "early")) /\ Erre r = None) /\
    (Result.isOk (mkResult (None : option Z) (Some "early")) = false ->
     r = mkResult (Some 7) None).
Proof.
  assert (Hthis : exclusive (mkResult (None : option Z) (Some "early")))
    by (cbv; discriminate).
  assert (HRes : exclusive (mkResult (Some 7) (None : option bool)))
    by (cbv; discriminate).
  split; [exact Hthis|]. split; [exact HRes|].
  apply (ore_table bool (mkResult (Some 7) None)
           (mkResult None (Some "early")) (mkWorld [] tt) Hthis HRes).
Defined.

Lemma value_xor_err_witness :
  exclusive (mkResult (None : option Z) (Some "error")) /\
  ((exists v, Oke (mkResult (None : option Z) (Some "error")) = Some v /\
      Result.value (mkResult None (Some "error")) (mkWorld [] tt) =
      Returns (v, mkResult None None) (mkWorld [] tt) /\
      Result.err (mkResult (None : option Z) (Some "error")) (mkWorld [] tt) =
      Exits 1 (mkWorld
                 ([] ++ ["Trying to get the error of a result which doesn't have an error"])
                 tt)) \/
   (exists e, Erre (mkResult (None : option Z) (Some "error")) = Some e /\
      Result.err (mkResult (None : option Z) (Some "error")) (mkWorld [] tt) =
      Returns (e, mkResult None None) (mkWorld [] tt) /\
      Result.value (mkResult (None : option Z) (Some "error")) (mkWorld [] tt) =
      Exits 1 (mkWorld
                 ([] ++ ["Trying to get the value of a result which doesn't have a value"])
                 tt))).
Proof.
  assert (Hex : exclusive (mkResult (None : option Z) (Some "error")))
    by (cbv; discriminate).
  split; [exact Hex|].
  apply (value_xor_err (mkResult None (Some "error")) (mkWorld [] tt) Hex).
Defined.

Lemma map_after_value_exits_witness :
  Oke (mkResult (Some 5) (None : option string)) = Some 5 /\
  Erre (mkResult (Some 5) (None : option string)) = None /\
  (p <- Result.value (mkResult (Some 5) (None : option string)) ;;
   Result.map (fun x => ret (x * 2)) (snd p)) (mkWorld [] tt) =
  Exits 1 (mkWorld
             ["Trying to apply a map function to a Result that has no value and no error."]
             tt) /\
  (p <- Result.value (mkResult (Some 5) (None : option string)) ;;
   Result.mapErr (fun s => ret (String.length s)) (snd p)) (mkWorld [] tt) =
  Exits 1 (mkWorld
             ["Trying to apply a mapErr function to a Result that has no value and no error."]
             tt).
Proof.
  split; [reflexivity|]. split; [reflexivity|].
  apply (map_after_value_exits Z nat (fun x => ret (x * 2))
           (fun s => ret (String.length s))
           (mkResult (Some 5) None) 5 (mkWorld [] tt));
    reflexivity.
Defined.

Lemma valueOr_twice_witness :
  Oke (mkResult (Some 5) (None : option string)) = Some 5 /\
  (p <- Result.valueOr 10 (mkResult (Some 5) (None : option string)) ;;
   q <- Result.valueOr 11 (snd p) ;;
   ret (fst p, fst q, snd q)) (mkWorld [] tt) =
  Returns (5, 11, mkResult None None) (mkWorld [] tt).
Proof.
  split; [reflexivity|].
  apply (valueOr_twice (mkResult (Some 5) (None : option string)) 5 10 11
           (mkWorld [] tt)).
  reflexivity.
Defined.

Lemma errOr_twice_witness :
  Erre (mkResult (None : option Z) (Some "error")) = Some "error" /\
  (p <- Result.errOr "first" (mkResult (None : option Z) (Some "error")) ;;
   q <- Result.errOr "second" (snd p) ;;
   ret (fst p, fst q, snd q)) (mkWorld [] tt) =
  Returns ("error", "second", mkResult None None) (mkWorld [] tt).
Proof.
  split; [reflexivity|].
  apply (errOr_twice (mkResult (None : option Z) (Some "error"))
           "error" "first" "second" (mkWorld [] tt)).
  reflexivity.
Defined.

Lemma err_twice_exits_witness :
  Erre (mkResult (None : option Z) (Some "error")) = Some "error" /\
  Result.err (mkResult (None : option Z) (Some "error")) (mkWorld [] tt) =
  Returns ("error", mkResult None None) (mkWorld [] tt) /\
  (p <- Result.err (mkResult (None : option Z) (Some "error")) ;;
   Result.err (snd p)) (mkWorld [] tt) =
  Exits 1 (mkWorld
             ["Trying to get the error of a result which doesn't have an error"]
             tt).
Proof.
  split; [reflexivity|].
  apply (err_twice_exits (mkResult (None : option Z) (Some "error")) "error"
           (mkWorld [] tt)).
  reflexivity.
Defined.

(** [ok<int, int>(3).expect(...)], as in the test, twice. *)
Lemma expect_leaves_slot_witness :
  Oke (mkResult (Some 3) (None : option Z)) = Some 3 /\
  exists r' : Result Z Z,
    Result.expect "not printed" (mkResult (Some 3) None) (mkWorld [] tt) =
    Returns (3, r') (mkWorld [] tt) /\
    Result.isOk r' = true /\
    Erre r' = None /\
    (p <- Result.expect "not printed" (mkResult (Some 3) (None : option Z)) ;;
     Result.expect "nor this" (snd p)) (mkWorld [] tt) =
    Returns (3, mkResult (Some 3) None) (mkWorld [] tt).
Proof.
  split; [reflexivity|].
  exact (expect_leaves_slot "not printed" "nor this"
           (mkResult (Some 3) (None : option Z)) 3 (mkWorld [] tt) eq_refl).
Defined.

(** [Result<int, std::string>]: both payload types compare as required. *)
Lemma operator_eq_decides_witness :
  (forall x y : Z, op_eq x y = true <-> x = y) /\
  (forall x y : string, op_eq x y = true <-> x = y) /\
  (Result.operator_eq (mkResult (Some 2) (None : option string))
     (mkResult (Some 2) None) = true <->
   mkResult (Some 2) (None : option string) = mkResult (Some 2) None).
Proof.
  split; [exact Z.eqb_eq|]. split; [exact String.eqb_eq|].
  exact (operator_eq_decides (mkResult (Some 2) (None : option string))
           (mkResult (Some 2) None) Z.eqb_eq String.eqb_eq).
Defined.

(** [ok<int, std::string>(5).contains(5)], as in the test. *)
Lemma contains_iff_witness :
  (forall x y : Z, op_eq x y = true <-> x = y) /\
  (forall x y : string, op_eq x y = true <-> x = y) /\
  (Result.contains 5 (mkResult (Some 5) (None : option string)) = true <->
   Oke (mkResult (Some 5) (None : option string)) = Some 5) /\
  (Result.containsErr "error" (mkResult (Some 5) (None : option string)) = true <->
   Erre (mkResult (Some 5) (None : option string)) = Some "error").
Proof.
  split; [exact Z.eqb_eq|]. split; [exact String.eqb_eq|].
  exact (contains_iff 5 "error" (mkResult (Some 5) (None : option string))
           Z.eqb_eq String.eqb_eq).
Defined.

(** Two [Result<int, int>] objects, at addresses 0 and 1. *)
Lemma move_assign_transfers_witness :
  0%nat <> 1%nat /\
  let objs : Objects Z Z :=
    fun a => if Nat.eqb a 0 then mkResult None (Some 4) else mkResult (Some 9) None in
  operator_assign 0 1 objs 0%nat = objs 1%nat /\
  operator_assign 0 1 objs 1%nat =
  mkResult (option_map moved_from (Oke (objs 1%nat)))
           (option_map moved_from (Erre (objs 1%nat))) /\
  Result.isOk (operator_assign 0 1 objs 1%nat) = Result.isOk (objs 1%nat) /\
  Result.isErr (operator_assign 0 1 objs 1%nat) = Result.isErr (objs 1%nat) /\
  (forall a : nat, a <> 0%nat -> a <> 1%nat -> operator_assign 0 1 objs a = objs a) /\
  operator_assign 0 0 objs = objs.
Proof.
  assert (Hne : 0%nat <> 1%nat) by discriminate.
  split; [exact Hne|].
  exact (move_assign_transfers 0 1
           (fun a => if Nat.eqb a 0 then mkResult None (Some 4)
                     else mkResult (Some 9) None) Hne).
Defined.

Lemma move_ctor_keeps_exclusive_witness :
  2%nat <> 1%nat /\
  exclusive (mkResult (Some 9) (None : option Z)) /\
  let objs : Objects Z Z := fun _ => mkResult (Some 9) None in
  Result_move_ctor 2 1 objs 2%nat = objs 1%nat /\
  exclusive (Result_move_ctor 2 1 objs 2%nat) /\
  exclusive (Result_move_ctor 2 1 objs 1%nat) /\
  Result.isOk (Result_move_ctor 2 1 objs 1%nat) = Result.isOk (objs 1%nat).
Proof.
  assert (Hne : 2%nat <> 1%nat) by discriminate.
  assert (Hex : exclusive (mkResult (Some 9) (None : option Z)))
    by (cbv; discriminate).
  split; [exact Hne|]. split; [exact Hex|].
  exact (move_ctor_keeps_exclusive 2 1 (fun _ => mkResult (Some 9) None) Hne Hex).
Defined.

(** [std::cout << ok<int, std::string>(-5)]. *)
Lemma print_one_payload_witness :
  exclusive (mkResult (Some (-5)) (None : option string)) /\
  ((exists v, Oke (mkResult (Some (-5)) (None : option string)) = Some v /\
      operator_shl "" (mkResult (Some (-5)) (None : option string)) =
      String.append (stream_out (String.append "" "Ok{") v) "}" /\
      (p <- Result.value (mkResult (Some (-5)) (None : option string)) ;;
       ret (operator_shl "" (snd p))) (mkWorld [] tt) = Returns "" (mkWorld [] tt)) \/
   (exists e, Erre (mkResult (Some (-5)) (None : option string)) = Some e /\
      operator_shl "" (mkResult (Some (-5)) (None : option string)) =
      String.append (stream_out (String.append "" "Err{") e) "}" /\
      (p <- Result.err (mkResult (Some (-5)) (None : option string)) ;;
       ret (operator_shl "" (snd p))) (mkWorld [] tt) = Returns "" (mkWorld [] tt))).
Proof.
  assert (Hex : exclusive (mkResult (Some (-5)) (None : option string)))
    by (cbv; discriminate).
  split; [exact Hex|].
  exact (print_one_payload "" (mkResult (Some (-5)) None) (mkWorld [] tt) Hex).
Defined.

(** [err<int, int>(3).orElse(sq).orElse(er)], as in the test. *)
Lemma orElse_recovers_once_witness :
  Z.abs 3 <= 46340 /\
  (a <- err 3 ;; b <- Result.orElse tests.sq a ;; Result.orElse tests.er b)
    (mkWorld [] tt) =
  Returns (mkResult (Some (3 * 3)) None) (mkWorld [] tt).
Proof.
  assert (Hin : Z.abs 3 <= 46340) by (simpl; lia).
  split; [exact Hin|].
  exact (orElse_recovers_once tests.er 3 (mkWorld [] tt) Hin).
Defined.

(** Two producers and the consumer taking turns on a new queue. *)
Lemma run_fifo_witness :
  mpsc.Mut (mpsc.MpscQueue_default (T := Z)) = false /\
  exists (rs : list (Result Z mpsc.MpscError)) (items : list Z),
    mpsc.run [mpsc.Enqueue 1; mpsc.Dequeue; mpsc.Dequeue; mpsc.Enqueue 2;
              mpsc.Enqueue 3; mpsc.Dequeue]
      mpsc.MpscQueue_default (mkWorld [] tt) =
    Returns (rs, mpsc.mkMpscQueue items false) (mkWorld [] tt) /\
    mpsc.payloads rs ++ items =
    mpsc.Q mpsc.MpscQueue_default ++
    mpsc.enqueued [mpsc.Enqueue 1; mpsc.Dequeue; mpsc.Dequeue; mpsc.Enqueue 2;
                   mpsc.Enqueue 3; mpsc.Dequeue].
Proof.
  split; [reflexivity|].
  exact (run_fifo [mpsc.Enqueue 1; mpsc.Dequeue; mpsc.Dequeue; mpsc.Enqueue 2;
                   mpsc.Enqueue 3; mpsc.Dequeue]
           mpsc.MpscQueue_default (mkWorld [] tt) eq_refl).
Defined.
